(** * go-mlabtest: a shallow embedding of [mlabtest.go]

    The development follows the Go package [mlabtest]:

    - [NetConfig], [NetConfig_IP], [getNetConfig], [MLab_NetConfig],
      [NeedForwarding], [GetAddressPort]: the network configuration of a lab;
    - [blockingReader_Read], [blockingReader_Close]: the reader given to the
      lab as its standard input, alone and under concurrent callers
      ([thread_step]);
    - [New], [MLab_doStart], [MLab_Start], [MLab_Close], [MLab_IsClosed]: the
      life cycle of a lab, and the events that drive it ([step], [run]);
    - [NewLineLogger]: the line logger.

    Go values are modelled as the code has them: a nil pointer, slice or
    error is [None]; a Go map is a [gmap]; a function with several results
    returns a tuple; code that touches the handle or the outside world passes
    the handle [MLab] and the [World] explicitly; a run-time panic is the
    [Panic] outcome of [Result]. What the package takes from the Go library
    ([os/exec], [sync.Once], channels, [bufio.Scanner], [io.Pipe],
    [bytes.TrimSpace], [strings.HasPrefix]) is modelled next to its use, each
    with the behaviour the package relies on.

    The file has the program first, then the statements, invariants and
    examples, then the properties. *)

From Stdlib Require Import ZArith String Ascii List Lia.
From stdpp Require Import base option list gmap strings fin_maps pretty.

Local Open Scope string_scope.
Local Open Scope Z_scope.

(** ** Go basics *)

(** A Go [error]: the message of a non-nil error; nil is [None]. *)
Definition error := string.

(** The outcome of running Go code: it returns, it panics, or it calls
    [Fatal] on the testing object, which stops the calling goroutine. *)
Inductive Result (A : Type) : Type :=
| Ok (a : A)
| Panic (reason : string)
| Fatal (msg : string).
Arguments Ok {A} a.
Arguments Panic {A} reason.
Arguments Fatal {A} msg.

Definition nil_dereference : string :=
  "runtime error: invalid memory address or nil pointer dereference".
Definition close_of_closed_channel : string := "close of closed channel".

(** [net.IP] is a byte slice: nil, or the bytes of the address. *)
Definition IP := option (list Byte.byte).

(** [strings.HasPrefix(s, prefix)]:
    [len(s) >= len(prefix) && s[0:len(prefix)] == prefix]. *)
Definition HasPrefix (s prefix : string) : bool :=
  (String.length prefix <=? String.length s)%nat
  && String.eqb (substring 0 (String.length prefix) s) prefix.

(** [var loopbackAddress = net.ParseIP("127.0.0.1")]: [net.ParseIP] gives an
    IPv4 address in its 16-byte form, ::ffff:127.0.0.1. *)
Definition loopbackAddress : IP :=
  Some [Byte.x00; Byte.x00; Byte.x00; Byte.x00; Byte.x00; Byte.x00;
        Byte.x00; Byte.x00; Byte.x00; Byte.x00; Byte.xff; Byte.xff;
        Byte.x7f; Byte.x00; Byte.x00; Byte.x01].

(** ** The network configuration *)

(** [type NetConfig struct]. A nil Go map reads like the empty map. Ports are
    Go [int]s; they are looked up and handed on, never computed with. *)
Record NetConfig := mkNetConfig {
  Interfaces : gmap string IP;
  ExposedPorts : gmap Z Z
}.

(** What one run of [mlab inspect] gives back to [getNetConfig]: the command
    fails, or its output is handed to the JSON decoder, which yields (or fails
    to yield) the interface records and then the port records. *)
Record ifc_record := mkIfc { Address : string; IFName : string }.
Record port_record := mkPort { Internal : Z; External : Z }.

Inductive inspect_outcome :=
| InspectFailed (err : error)
| InspectOutput (ifcs : error + list ifc_record)
                (portList : error + list port_record).

(** ** Channels, readers, commands and the handle *)

(** [chan struct{}] on which nothing is ever sent: all that matters is whether
    it has been closed. *)
Record Chan := mkChan { chan_closed : bool }.

Definition make_chan : Chan := {| chan_closed := false |}.

(** [close(c)] panics on a closed channel. *)
Definition close_chan (c : Chan) : Result Chan :=
  if chan_closed c then Panic close_of_closed_channel
  else Ok {| chan_closed := true |}.

(** [blockingReader]: [once] is the [sync.Once] (has its function run?), [c]
    the channel. *)
Record blockingReader := mkBlockingReader {
  once_done : bool;
  c : Chan
}.

(** [exec.Cmd], as far as the package uses it. [Process] is nil until the
    command has been started. *)
Record Cmd := mkCmd {
  Path : string;
  Args : list string;
  Cmd_Stdin : bool;
  Cmd_Stdout : bool;
  Cmd_Stderr : bool;
  Process : option nat
}.

(** [type MLab struct]. [t], [Logger], [Stdin], [Stdout] and [Stderr] record
    whether the field is non-nil. *)
Record MLab := mkMLab {
  cmd : Cmd;
  idfile : string;
  id : string;
  closechan : Chan;
  toBeClosed : list blockingReader;
  netConfig : option NetConfig;
  t : bool;
  Logger : bool;
  Stdin : bool;
  Stdout : bool;
  Stderr : bool
}.

(** The state of the lab process as the operating system has it. *)
Inductive proc_state :=
| NotSpawned
| Alive
| Exited (desc : string).

(** The world outside the handle: the files, the lab process, the exit-monitor
    goroutine started by [doStart], the lines given to the logger, and three
    counters that only observe: how often [mlab inspect] was run and how often
    each of the two [close(m.closechan)] statements was executed. *)
Record World := mkWorld {
  files : gmap string string;
  proc : proc_state;
  monitor_pending : bool;
  logged : list string;
  inspections : nat;
  fired_on_spawn_failure : nat;
  fired_by_monitor : nat
}.

Definition set_netConfig (m : MLab) (nc : option NetConfig) : MLab :=
  {| cmd := cmd m; idfile := idfile m; id := id m; closechan := closechan m;
     toBeClosed := toBeClosed m; netConfig := nc; t := t m;
     Logger := Logger m; Stdin := Stdin m; Stdout := Stdout m;
     Stderr := Stderr m |}.

Definition count_inspection (w : World) : World :=
  {| files := files w; proc := proc w; monitor_pending := monitor_pending w;
     logged := logged w; inspections := S (inspections w);
     fired_on_spawn_failure := fired_on_spawn_failure w;
     fired_by_monitor := fired_by_monitor w |}.

Section Resolver.

(** Go iterates over a map in an order of its own choosing: [map_range m]
    is the order in which [for ... := range m] visits the entries. *)
Variable map_range : gmap string IP → list (string * IP).

(** [net.ParseIP]: nil when the text is not an IP address. *)
Variable ParseIP : string → IP.

(** The [n]-th run of [mlab inspect -f ... id]. *)
Variable inspect : nat → string → inspect_outcome.

(** [func (n *NetConfig) IP() net.IP] *)
Definition NetConfig_IP (n : option NetConfig) : IP :=
  match n with
  | None => None
  | Some n =>
      if decide (size (Interfaces n) = 0%nat) then None
      else
        (* try eth0 *)
        match Interfaces n !! "eth0" with
        | Some ip => ip
        | None =>
            (* get the first *)
            match map_range (Interfaces n) with
            | (_, ip) :: _ => ip
            | [] => None
            end
        end
  end.

(** The loop [for _, i := range ifcs] of [getNetConfig]: the first address
    that does not parse ends it with an error. *)
Fixpoint fill_interfaces (ifcs : list ifc_record) (interfaces : gmap string IP)
  : error + gmap string IP :=
  match ifcs with
  | [] => inr interfaces
  | i :: rest =>
      match ParseIP (Address i) with
      | None =>
          inl ("error parsing address (" +:+ Address i +:+ ") of "
               +:+ IFName i)
      | Some ip => fill_interfaces rest (<[IFName i := Some ip]> interfaces)
      end
  end.

(** The loop [for _, p := range portList]. *)
Fixpoint fill_ports (portList : list port_record) (ports : gmap Z Z)
  : gmap Z Z :=
  match portList with
  | [] => ports
  | p :: rest => fill_ports rest (<[Internal p := External p]> ports)
  end.

(** [func (m *MLab) getNetConfig() ( *NetConfig, error)] *)
Definition getNetConfig (m : MLab) (w : World)
  : (option NetConfig * option error) * World :=
  let w' := count_inspection w in
  match inspect (inspections w) (id m) with
  | InspectFailed err => ((None, Some err), w')
  | InspectOutput ifcs portList =>
      match ifcs with
      | inl err => ((None, Some err), w')
      | inr ifcs =>
          match fill_interfaces ifcs ∅ with
          | inl err => ((None, Some err), w')
          | inr interfaces =>
              match portList with
              | inl err => ((None, Some err), w')
              | inr portList =>
                  ((Some {| Interfaces := interfaces;
                            ExposedPorts := fill_ports portList ∅ |},
                    None), w')
              end
          end
      end
  end.

(** [func (m *MLab) NetConfig() ( *NetConfig, error)] *)
Definition MLab_NetConfig (m : MLab) (w : World)
  : (option NetConfig * option error) * MLab * World :=
  match netConfig m with
  | Some nc => ((Some nc, None), m, w)
  | None =>
      let '((nc, err), w') := getNetConfig m w in
      match err with
      | None => ((nc, err), set_netConfig m nc, w')
      | Some _ => ((nc, err), m, w')
      end
  end.

(** [func NeedForwarding() bool], with the value of the environment variable
    MLAB_HOST as its argument. *)
Definition NeedForwarding (MLAB_HOST : string) : bool :=
  negb (HasPrefix MLAB_HOST "unix:").

(** [fmt.Errorf("could not find port mapping for %d", port)] *)
Definition no_mapping_error (port : Z) : error :=
  "could not find port mapping for " +:+ pretty port.

(** The end of [GetAddressPort], from [if fport, ok := conf.ExposedPorts[port]]
    on. [conf.ExposedPorts] dereferences [conf]. *)
Definition port_forwarding (conf : option NetConfig) (port : Z)
  : Result (IP * Z * option error) :=
  match conf with
  | None => Panic nil_dereference
  | Some cf =>
      match ExposedPorts cf !! port with
      | Some fport => Ok (loopbackAddress, fport, None)
      | None => Ok (None, 0, Some (no_mapping_error port))
      end
  end.

(** [func (m *MLab) GetAddressPort(port int) (net.IP, int, error)] *)
Definition GetAddressPort (MLAB_HOST : string) (port : Z) (m : MLab) (w : World)
  : Result (IP * Z * option error) * MLab * World :=
  let '((conf, err), m', w') := MLab_NetConfig m w in
  match err with
  | Some e => (Ok (None, 0, Some e), m', w')
  | None =>
      if negb (NeedForwarding MLAB_HOST) then
        match NetConfig_IP conf with
        | Some ip => (Ok (Some ip, port, None), m', w')
        | None =>
            (* we don't have IP? let's try also forwarding *)
            (port_forwarding conf port, m', w')
        end
      else (port_forwarding conf port, m', w')
  end.


End Resolver.

(** ** The blocking reader *)

Definition EOF : error := "EOF".

(** [func newBlockingReader() io.ReadCloser] *)
Definition newBlockingReader : blockingReader :=
  {| once_done := false; c := make_chan |}.

(** [func (b *blockingReader) Read(_ []byte) (int, error)]: the receive
    [<-b.c] blocks while the channel is open ([None]); nothing is ever sent on
    the channel, so the receive completes only once the channel is closed. *)
Definition blockingReader_Read (b : blockingReader) : option (Z * option error) :=
  if chan_closed (c b) then Some (0, Some EOF) else None.

(** [func (b *blockingReader) Close() error]:
    [b.once.Do(func() { close(b.c) })] runs the function on the first call
    only. *)
Definition blockingReader_Close (b : blockingReader)
  : Result (blockingReader * option error) :=
  if once_done b then Ok (b, None)
  else
    match close_chan (c b) with
    | Ok c' => Ok ({| once_done := true; c := c' |}, None)
    | Panic r => Panic r
    | Fatal r => Fatal r
    end.

(** ** The life cycle of a lab *)

Definition set_cmd (m : MLab) (x : Cmd) : MLab :=
  {| cmd := x; idfile := idfile m; id := id m; closechan := closechan m;
     toBeClosed := toBeClosed m; netConfig := netConfig m; t := t m;
     Logger := Logger m; Stdin := Stdin m; Stdout := Stdout m;
     Stderr := Stderr m |}.

Definition set_id (m : MLab) (x : string) : MLab :=
  {| cmd := cmd m; idfile := idfile m; id := x; closechan := closechan m;
     toBeClosed := toBeClosed m; netConfig := netConfig m; t := t m;
     Logger := Logger m; Stdin := Stdin m; Stdout := Stdout m;
     Stderr := Stderr m |}.

Definition set_closechan (m : MLab) (x : Chan) : MLab :=
  {| cmd := cmd m; idfile := idfile m; id := id m; closechan := x;
     toBeClosed := toBeClosed m; netConfig := netConfig m; t := t m;
     Logger := Logger m; Stdin := Stdin m; Stdout := Stdout m;
     Stderr := Stderr m |}.

Definition set_toBeClosed (m : MLab) (x : list blockingReader) : MLab :=
  {| cmd := cmd m; idfile := idfile m; id := id m; closechan := closechan m;
     toBeClosed := x; netConfig := netConfig m; t := t m;
     Logger := Logger m; Stdin := Stdin m; Stdout := Stdout m;
     Stderr := Stderr m |}.

Definition set_files (w : World) (x : gmap string string) : World :=
  {| files := x; proc := proc w; monitor_pending := monitor_pending w;
     logged := logged w; inspections := inspections w;
     fired_on_spawn_failure := fired_on_spawn_failure w;
     fired_by_monitor := fired_by_monitor w |}.

Definition set_proc (w : World) (x : proc_state) : World :=
  {| files := files w; proc := x; monitor_pending := monitor_pending w;
     logged := logged w; inspections := inspections w;
     fired_on_spawn_failure := fired_on_spawn_failure w;
     fired_by_monitor := fired_by_monitor w |}.

Definition set_monitor_pending (w : World) (x : bool) : World :=
  {| files := files w; proc := proc w; monitor_pending := x;
     logged := logged w; inspections := inspections w;
     fired_on_spawn_failure := fired_on_spawn_failure w;
     fired_by_monitor := fired_by_monitor w |}.

Definition add_logged (w : World) (line : string) : World :=
  {| files := files w; proc := proc w; monitor_pending := monitor_pending w;
     logged := logged w ++ [line]; inspections := inspections w;
     fired_on_spawn_failure := fired_on_spawn_failure w;
     fired_by_monitor := fired_by_monitor w |}.

Definition count_spawn_failure_fire (w : World) : World :=
  {| files := files w; proc := proc w; monitor_pending := monitor_pending w;
     logged := logged w; inspections := inspections w;
     fired_on_spawn_failure := S (fired_on_spawn_failure w);
     fired_by_monitor := fired_by_monitor w |}.

Definition count_monitor_fire (w : World) : World :=
  {| files := files w; proc := proc w; monitor_pending := monitor_pending w;
     logged := logged w; inspections := inspections w;
     fired_on_spawn_failure := fired_on_spawn_failure w;
     fired_by_monitor := S (fired_by_monitor w) |}.

(** [ioutil.TempFile] creates the file, empty, and [New] keeps its name. The
    world a handle starts in has no lab process yet. *)
Definition initial_world (fs : gmap string string) : World :=
  {| files := fs; proc := NotSpawned; monitor_pending := false; logged := [];
     inspections := 0; fired_on_spawn_failure := 0; fired_by_monitor := 0 |}.

(** The struct [New] builds: [lab := &MLab{...}], and the logger when there
    is a testing object. *)
Definition new_handle (tb : bool) (script : string) (args : list string)
    (idfname : string) : MLab :=
  let pargs := (["run"; "--wait"; "--id"; idfname; script] ++ args)%list in
  {| cmd := {| Path := "mlab"; Args := "mlab" :: pargs;
               Cmd_Stdin := false; Cmd_Stdout := false;
               Cmd_Stderr := false; Process := None |};
     idfile := idfname;
     id := "";
     closechan := make_chan;
     toBeClosed := [];
     netConfig := None;
     t := tb;
     Logger := tb;
     Stdin := false; Stdout := false; Stderr := false |}.

(** [func New(tb testing.TB, script string, args ...string) ( *MLab, error)].
    [tmp] is what [ioutil.TempFile] returns: an error, or the name of the file
    it created. *)
Definition New (tb : bool) (script : string) (args : list string)
    (tmp : error + string) (w : World)
  : Result (option MLab * option error) * World :=
  match tmp with
  | inl err =>
      if tb then (Fatal "mlabtest::New failed creating temp file:", w)
      else (Ok (None, Some err), w)
  | inr idfname =>
      (Ok (Some (new_handle tb script args idfname), None),
       set_files w (<[idfname := ""]> (files w)))
  end.

(** [func (m *MLab) Log(format string, a ...interface{})] *)
Definition MLab_Log (m : MLab) (line : string) (w : World) : World :=
  if Logger m then add_logged w line else w.

(** [func (m *MLab) IsClosed() bool]: the [select] takes the receive from
    [m.closechan] when it is ready, which is when the channel is closed, and
    the [default] case otherwise. *)
Definition MLab_IsClosed (m : MLab) : bool := chan_closed (closechan m).

(** [m.cmd.Process.Kill()]: the method reads the fields of the process, so a
    nil [Process] is a nil pointer dereference. A live process is killed; for
    one that has exited [Kill] returns an error, which [Close] drops. *)
Definition Process_Kill (p : option nat) (w : World) : Result World :=
  match p with
  | None => Panic nil_dereference
  | Some _ =>
      match proc w with
      | Alive => Ok (set_proc w (Exited "signal: killed"))
      | _ => Ok w
      end
  end.

(** The loop [for _, c := range m.toBeClosed { c.Close() }]. The slice holds
    pointers: the readers are closed in place. *)
Fixpoint close_all (cs : list blockingReader) : Result (list blockingReader) :=
  match cs with
  | [] => Ok []
  | b :: rest =>
      match blockingReader_Close b with
      | Ok (b', _) =>
          match close_all rest with
          | Ok rest' => Ok (b' :: rest')
          | Panic r => Panic r
          | Fatal r => Fatal r
          end
      | Panic r => Panic r
      | Fatal r => Fatal r
      end
  end.

(** [func (m *MLab) Close() error]. [os.Remove] deletes the file; its error
    for a missing file is dropped. *)
Definition MLab_Close (m : MLab) (w : World)
  : Result (option error * MLab * World) :=
  let w1 := MLab_Log m "MLab:Close" w in
  let killed :=
    if negb (MLab_IsClosed m) then
      Process_Kill (Process (cmd m)) (MLab_Log m "Actually killing process" w1)
    else Ok w1 in
  match killed with
  | Panic r => Panic r
  | Fatal r => Fatal r
  | Ok w2 =>
      match close_all (toBeClosed m) with
      | Panic r => Panic r
      | Fatal r => Fatal r
      | Ok cs =>
          Ok (None, set_toBeClosed m cs,
              set_files w2 (delete (idfile m) (files w2)))
      end
  end.

(** Sequencing of code that may panic. *)
Definition Result_bind {A B : Type} (r : Result A) (k : A → Result B) : Result B :=
  match r with
  | Ok a => k a
  | Panic reason => Panic reason
  | Fatal msg => Fatal msg
  end.

Notation "'do' x <- r ; k" := (Result_bind r (fun x => k))
  (at level 10, x pattern, r at level 100, k at level 200,
   format "'[v' 'do'  x  <-  r ; '/' k ']'").

(** [bytes.TrimSpace] on the ASCII white space characters tab, line feed,
    vertical tab, form feed, carriage return and space. (Go also trims the
    Unicode spaces outside ASCII; such bytes are kept here.) *)
Definition is_space (a : ascii) : bool :=
  let n := nat_of_ascii a in
  ((9 <=? n) && (n <=? 13) || (n =? 32))%nat.

Fixpoint trim_left (l : list ascii) : list ascii :=
  match l with
  | [] => []
  | a :: rest => if is_space a then trim_left rest else l
  end.

Definition TrimSpace (s : string) : string :=
  string_of_list_ascii
    (rev (trim_left (rev (trim_left (list_ascii_of_string s))))).
Arguments TrimSpace : simpl never.

(** What the outside world does during one call of [doStart]. *)
Inductive idfile_effect :=
| IdUntouched
| IdWritten (content : string)
| IdRemoved.

Record start_env := mkStartEnv {
  (** [os.Pipe] fails inside [cmd.StdoutPipe] *)
  pipe_error : option error;
  (** [cmd.Start] fails *)
  spawn_error : option error;
  (** the process identifier of the process started *)
  pid : nat;
  (** what the launcher does to the identifier file before it is read *)
  launcher_id : idfile_effect;
  (** the process exits, and the exit monitor runs, while [doStart] is still
      copying the output or waiting in its [select]: the description of its
      [ProcessState] *)
  early_exit : option string;
  (** [io.Copy] fails *)
  copy_error : option error
}.

Definition set_Cmd_Stdin (x : Cmd) : Cmd :=
  {| Path := Path x; Args := Args x; Cmd_Stdin := true;
     Cmd_Stdout := Cmd_Stdout x; Cmd_Stderr := Cmd_Stderr x;
     Process := Process x |}.

Definition set_Cmd_Stderr (x : Cmd) : Cmd :=
  {| Path := Path x; Args := Args x; Cmd_Stdin := Cmd_Stdin x;
     Cmd_Stdout := Cmd_Stdout x; Cmd_Stderr := true;
     Process := Process x |}.

Definition set_Cmd_Stdout (x : Cmd) : Cmd :=
  {| Path := Path x; Args := Args x; Cmd_Stdin := Cmd_Stdin x;
     Cmd_Stdout := true; Cmd_Stderr := Cmd_Stderr x;
     Process := Process x |}.

Definition set_Process (x : Cmd) (p : nat) : Cmd :=
  {| Path := Path x; Args := Args x; Cmd_Stdin := Cmd_Stdin x;
     Cmd_Stdout := Cmd_Stdout x; Cmd_Stderr := Cmd_Stderr x;
     Process := Some p |}.

(** [func (c *Cmd) StdoutPipe() (io.ReadCloser, error)] of [os/exec]: refuses
    when [c.Stdout] is set or the process has been started, otherwise makes the
    pipe and sets [c.Stdout] to its write end. *)
Definition Cmd_StdoutPipe (x : Cmd) (pipe_err : option error)
  : Cmd * option error :=
  if Cmd_Stdout x then (x, Some "exec: Stdout already set")
  else
    match Process x with
    | Some _ => (x, Some "exec: StdoutPipe after process started")
    | None =>
        match pipe_err with
        | Some e => (x, Some e)
        | None => (set_Cmd_Stdout x, None)
        end
    end.

(** [func (c *Cmd) Start() error] of [os/exec]: [c.Process] is set only when
    the process has been started. *)
Definition Cmd_Start (x : Cmd) (spawn_err : option error) (p : nat)
  : Cmd * option error :=
  match Process x with
  | Some _ => (x, Some "exec: already started")
  | None =>
      match spawn_err with
      | Some e => (x, Some e)
      | None => (set_Process x p, None)
      end
  end.

Definition apply_idfile_effect (eff : idfile_effect) (name : string)
    (fs : gmap string string) : gmap string string :=
  match eff with
  | IdUntouched => fs
  | IdWritten content => <[name := content]> fs
  | IdRemoved => delete name fs
  end.

(** The goroutine [go func() { m.cmd.Wait(); close(m.closechan) }()] once
    [m.cmd.Wait()] has returned. *)
Definition exit_monitor (m : MLab) (w : World) : Result (MLab * World) :=
  do ch <- close_chan (closechan m);
  Ok (set_closechan m ch, count_monitor_fire (set_monitor_pending w false)).

(** [ioutil.ReadFile] *)
Definition ReadFile (name : string) (w : World) : string * option error :=
  match files w !! name with
  | Some content => (content, None)
  | None => ("", Some ("open " +:+ name +:+ ": no such file or directory"))
  end.

(** [m.cmd.ProcessState.String()] *)
Definition ProcessState_String (w : World) : string :=
  match proc w with
  | Exited desc => desc
  | _ => "<nil>"
  end.

(** The beginning of [doStart]: the standard streams of the command. Without
    an input of the caller's, the command reads from a blocking reader, which
    [Close] will close. (The output is copied to [m.Stdout], or to a
    [nullWriter], which takes anything.) *)
Definition wire_streams (m : MLab) : MLab :=
  let m1 :=
    if Stdin m then set_cmd m (set_Cmd_Stdin (cmd m))
    else
      let br := newBlockingReader in
      set_toBeClosed (set_cmd m (set_Cmd_Stdin (cmd m)))
                     (toBeClosed m ++ [br]) in
  if Stderr m1 then set_cmd m1 (set_Cmd_Stderr (cmd m1)) else m1.

(** The launcher has had its way with the identifier file, the process runs,
    and the exit monitor waits for it. *)
Definition launched (env : start_env) (m : MLab) (w : World) : World :=
  set_monitor_pending
    (set_proc
       (set_files w (apply_idfile_effect (launcher_id env) (idfile m) (files w)))
       Alive)
    true.

(** [func (m *MLab) doStart() error] *)
Definition MLab_doStart (env : start_env) (m : MLab) (w : World)
  : Result (option error * MLab * World) :=
  let m2 := wire_streams m in
  let '(c3, perr) := Cmd_StdoutPipe (cmd m2) (pipe_error env) in
  let m3 := set_cmd m2 c3 in
  match perr with
  | Some e => Ok (Some e, m3, w)
  | None =>
      let '(c4, serr) := Cmd_Start (cmd m3) (spawn_error env) (pid env) in
      let m4 := set_cmd m3 c4 in
      match serr with
      | Some e =>
          do ch <- close_chan (closechan m4);
          Ok (Some e, set_closechan m4 ch, count_spawn_failure_fire w)
      | None =>
          let w5 := launched env m4 w in
          (* go func() { m.cmd.Wait(); close(m.closechan) }() *)
          do (m6, w6) <-
            match early_exit env with
            | Some desc => exit_monitor m4 (set_proc w5 (Exited desc))
            | None => Ok (m4, w5)
            end;
          match copy_error env with
          | Some e => Ok (Some e, m6, w6)
          | None =>
              if MLab_IsClosed m6 then
                Ok (Some ("mlab exited: " +:+ ProcessState_String w6), m6, w6)
              else
                let '(content, rerr) := ReadFile (idfile m6) w6 in
                match rerr with
                | Some e => Ok (Some e, m6, w6)
                | None => Ok (None, set_id m6 (TrimSpace content), w6)
                end
          end
      end
  end.

(** [func (m *MLab) Start() error] *)
Definition MLab_Start (env : start_env) (m : MLab) (w : World)
  : Result (option error * MLab * World) :=
  do (err, m', w') <- MLab_doStart env m w;
  match err with
  | Some e => if t m then Fatal "Failed starting MLab" else Ok (Some e, m', w')
  | None => Ok (None, m', w')
  end.

(** What can happen to a handle, one event after the other: its owner calls
    [Start] or [Close], the lab process exits, the exit monitor wakes up. *)
Inductive event :=
| EvStart (env : start_env)
| EvClose
| EvProcExit (desc : string)
| EvMonitor.

Definition step (e : event) (s : MLab * World) : Result (MLab * World) :=
  let '(m, w) := s in
  match e with
  | EvStart env => do (_, m', w') <- MLab_doStart env m w; Ok (m', w')
  | EvClose => do (_, m', w') <- MLab_Close m w; Ok (m', w')
  | EvProcExit desc =>
      match proc w with
      | Alive => Ok (m, set_proc w (Exited desc))
      | _ => Ok (m, w)
      end
  | EvMonitor =>
      if monitor_pending w then
        match proc w with
        | Exited _ => exit_monitor m w
        | _ => Ok (m, w)
        end
      else Ok (m, w)
  end.

Fixpoint run (evs : list event) (s : MLab * World) : Result (MLab * World) :=
  match evs with
  | [] => Ok s
  | e :: rest => do s' <- step e s; run rest s'
  end.

(** The handle [New] makes, with the world it is made in: no process yet, and
    the identifier file, empty. *)
Definition new_lab (tb : bool) (script : string) (args : list string)
    (idfname : string) (fs : gmap string string) : MLab * World :=
  (new_handle tb script args idfname,
   set_files (initial_world fs) (<[idfname := ""]> fs)).

(** ** The blocking reader under concurrent callers

    Any number of goroutines call [Read] and [Close] on one reader. Each call
    is a small program over the shared reader, and one step of one goroutine
    is atomic. [Close] is [sync.Once.Do] around [close(b.c)]:
<<
      if atomic.LoadUint32(&o.done) == 1 { return }
      o.m.Lock()
      defer o.m.Unlock()
      if o.done == 0 {
        defer atomic.StoreUint32(&o.done, 1)
        f()
      }
>>
    The program counter of a goroutine says which statement it is at. *)
Inductive pc :=
| ReadRecv                             (* Read, at the receive from b.c *)
| ReadDone (n : Z) (err : option error)  (* Read has returned n, err *)
| OnceLoad                             (* Close, at the load of o.done *)
| OnceLock                             (* at o.m.Lock() *)
| OnceCheck                            (* holding the lock, at o.done == 0 *)
| OnceCall                             (* at f(), which is close(b.c) *)
| OnceStore                            (* at the deferred store to o.done *)
| OnceUnlock                           (* at the deferred o.m.Unlock() *)
| CloseDone (err : option error).       (* Close has returned err *)

(** The reader, the mutex of its [sync.Once] (held by which goroutine), how
    often the channel was closed (each close wakes every blocked receiver),
    and the goroutines. *)
Record pool := mkPool {
  reader : blockingReader;
  mutex : option nat;
  broadcasts : nat;
  threads : list pc
}.

Definition initial_pool : pool :=
  {| reader := newBlockingReader; mutex := None; broadcasts := 0;
     threads := [] |}.

(** A goroutine begins a call. *)
Definition spawn (p : pc) (s : pool) : pool :=
  {| reader := reader s; mutex := mutex s; broadcasts := broadcasts s;
     threads := threads s ++ [p] |}.

Definition goto (i : nat) (p : pc) (s : pool) : pool :=
  {| reader := reader s; mutex := mutex s; broadcasts := broadcasts s;
     threads := <[i := p]> (threads s) |}.

Definition set_mutex (x : option nat) (s : pool) : pool :=
  {| reader := reader s; mutex := x; broadcasts := broadcasts s;
     threads := threads s |}.

Definition set_reader (b : blockingReader) (s : pool) : pool :=
  {| reader := b; mutex := mutex s; broadcasts := broadcasts s;
     threads := threads s |}.

Definition count_broadcast (s : pool) : pool :=
  {| reader := reader s; mutex := mutex s; broadcasts := S (broadcasts s);
     threads := threads s |}.

(** One step of goroutine [i]; [None] when it cannot move: it is blocked, it
    has returned, or there is no such goroutine. *)
Definition thread_step (i : nat) (s : pool) : option (Result pool) :=
  match threads s !! i with
  | None => None
  | Some ReadRecv =>
      match blockingReader_Read (reader s) with
      | Some (n, err) => Some (Ok (goto i (ReadDone n err) s))
      | None => None
      end
  | Some (ReadDone _ _) => None
  | Some OnceLoad =>
      if once_done (reader s) then Some (Ok (goto i (CloseDone None) s))
      else Some (Ok (goto i OnceLock s))
  | Some OnceLock =>
      match mutex s with
      | None => Some (Ok (goto i OnceCheck (set_mutex (Some i) s)))
      | Some _ => None
      end
  | Some OnceCheck =>
      if once_done (reader s) then Some (Ok (goto i OnceUnlock s))
      else Some (Ok (goto i OnceCall s))
  | Some OnceCall =>
      match close_chan (c (reader s)) with
      | Ok ch =>
          Some (Ok (goto i OnceStore
                      (count_broadcast
                         (set_reader {| once_done := once_done (reader s);
                                        c := ch |} s))))
      | Panic r => Some (Panic r)
      | Fatal r => Some (Fatal r)
      end
  | Some OnceStore =>
      Some (Ok (goto i OnceUnlock
                  (set_reader {| once_done := true; c := c (reader s) |} s)))
  | Some OnceUnlock => Some (Ok (goto i (CloseDone None) (set_mutex None s)))
  | Some (CloseDone _) => None
  end.

(** A call of [Close] that has not returned. *)
Definition closing (p : pc) : bool :=
  match p with
  | OnceLoad | OnceLock | OnceCheck | OnceCall | OnceStore | OnceUnlock => true
  | _ => false
  end.

(** The statements executed while holding the mutex. *)
Definition in_critical (p : pc) : bool :=
  match p with
  | OnceCheck | OnceCall | OnceStore | OnceUnlock => true
  | _ => false
  end.

(** Running a schedule: the goroutines to step, in order; a goroutine that
    cannot move is skipped. *)
Fixpoint schedule (order : list nat) (s : pool) : Result pool :=
  match order with
  | [] => Ok s
  | i :: rest =>
      match thread_step i s with
      | None => schedule rest s
      | Some r => do s' <- r; schedule rest s'
      end
  end.

(** ** The line logger

    [NewLineLogger] starts a goroutine that reads the pipe through a
    [bufio.Scanner] with the default split function [bufio.ScanLines] and
    hands every token to [f]. *)

Definition LF : ascii := ascii_of_nat 10.
Definition CR : ascii := ascii_of_nat 13.

(** [bytes.IndexByte] *)
Fixpoint IndexByte (data : string) (b : ascii) : option nat :=
  match data with
  | EmptyString => None
  | String a rest =>
      if Ascii.eqb a b then Some 0%nat
      else match IndexByte rest b with
           | Some i => Some (S i)
           | None => None
           end
  end.

(** [dropCR] of [bufio]: drops a trailing carriage return. *)
Definition dropCR (data : string) : string :=
  let n := String.length data in
  if (0 <? n)%nat && bool_decide (String.get (n - 1) data = Some CR)
  then substring 0 (n - 1) data
  else data.

(** [bufio.ScanLines]: how far to advance, and the token (nil: [None]). *)
Definition ScanLines (data : string) (atEOF : bool) : nat * option string :=
  if atEOF && (String.length data =? 0)%nat then (0%nat, None)
  else
    match IndexByte data LF with
    | Some i => (S i, Some (dropCR (substring 0 i data)))
    | None =>
        if atEOF then (String.length data, Some (dropCR data))
        else (0%nat, None)
    end.

(** The scanner: the bytes it holds, [s.buf[s.start:s.end]], and [s.err]. Its
    buffer starts at 4096 bytes and grows; the inputs below never fill it. *)
Record Scanner := mkScanner {
  held : string;
  sc_err : option error
}.

(** The read end of the pipe: the writes not yet read, and whether the write
    end was closed after them. [io.Pipe] hands each write to the reader as it
    is, an empty one too. *)
Record Pipe := mkPipe {
  pending : list string;
  write_closed : bool
}.

Inductive read_outcome :=
| ReadData (data : string) (rest : list string)
| ReadError (err : error) (rest : list string)
| ReadBlocks.

Definition maxConsecutiveEmptyReads : nat := 100.
Definition ErrNoProgress : error :=
  "multiple Read calls return no data or error".

(** The read loop of [Scan]: reads until it has data or an error, giving up
    after too many empty reads. *)
Fixpoint read_loop (loop : nat) (ws : list string) (closed : bool)
  : read_outcome :=
  match ws with
  | [] => if closed then ReadError EOF [] else ReadBlocks
  | data :: rest =>
      if (0 <? String.length data)%nat then ReadData data rest
      else if (maxConsecutiveEmptyReads <? S loop)%nat
           then ReadError ErrNoProgress rest
           else read_loop (S loop) rest closed
  end.

Inductive scan_outcome :=
| ScanToken (token : string)    (* Scan returns true *)
| ScanStop                      (* Scan returns false *)
| ScanBlocked.                  (* Scan is blocked in Read *)

Definition drop_string (n : nat) (s : string) : string :=
  substring n (String.length s - n) s.

(** One turn of the loop of [Scan]: it returns, or goes round again. *)
Inductive scan_turn :=
| TurnReturn (o : scan_outcome) (s : Scanner) (p : Pipe)
| TurnAgain (s : Scanner) (p : Pipe).

Definition Scan_turn (s : Scanner) (p : Pipe) : scan_turn :=
  (* see if we can get a token with what we already have *)
  let '(advance, token) :=
    if (0 <? String.length (held s))%nat || bool_decide (is_Some (sc_err s))
    then ScanLines (held s) (bool_decide (is_Some (sc_err s)))
    else (0%nat, None) in
  let s1 := {| held := drop_string advance (held s); sc_err := sc_err s |} in
  match token with
  | Some tk => TurnReturn (ScanToken tk) s1 p
  | None =>
      match sc_err s1 with
      | Some _ => TurnReturn ScanStop {| held := ""; sc_err := sc_err s1 |} p
      | None =>
          (* must read more data *)
          match read_loop 0 (pending p) (write_closed p) with
          | ReadBlocks =>
              TurnReturn ScanBlocked s1
                         {| pending := []; write_closed := write_closed p |}
          | ReadError e rest =>
              TurnAgain {| held := held s1; sc_err := Some e |}
                        {| pending := rest; write_closed := write_closed p |}
          | ReadData data rest =>
              TurnAgain {| held := held s1 +:+ data; sc_err := None |}
                        {| pending := rest; write_closed := write_closed p |}
          end
      end
  end.

(** [func (s *Scanner) Scan() bool]; one unit of [fuel] for each turn of its
    loop, [None] when the fuel runs out. *)
Fixpoint Scan (fuel : nat) (s : Scanner) (p : Pipe)
  : option (scan_outcome * Scanner * Pipe) :=
  match fuel with
  | O => None
  | S fuel' =>
      match Scan_turn s p with
      | TurnReturn o s' p' => Some (o, s', p')
      | TurnAgain s' p' => Scan fuel' s' p'
      end
  end.

(** What the goroutine of [NewLineLogger] has done once nothing more can
    happen: the lines it gave to [f], and whether it is blocked in [Read]
    (with the bytes the scanner holds) or has left its loop and closed the
    pipe. *)
Inductive logger_outcome :=
| LoggerBlocked (calls : list string) (kept : string)
| LoggerDone (calls : list string).

(** The loop [for scanner.Scan() { f(scanner.Text()) }]. *)
Fixpoint logger_loop (fuel : nat) (s : Scanner) (p : Pipe) (calls : list string)
  : option logger_outcome :=
  match fuel with
  | O => None
  | S fuel' =>
      match Scan fuel' s p with
      | None => None
      | Some (ScanToken tk, s', p') => logger_loop fuel' s' p' (calls ++ [tk])
      | Some (ScanStop, _, _) => Some (LoggerDone calls)
      | Some (ScanBlocked, s', _) => Some (LoggerBlocked calls (held s'))
      end
  end.

(** [func NewLineLogger(f LogFunc) io.WriteCloser], run on the writes made to
    the writer it returns ([closed]: followed by its [Close]). *)
Definition NewLineLogger (fuel : nat) (writes : list string) (closed : bool)
  : option logger_outcome :=
  logger_loop fuel {| held := ""; sc_err := None |}
              {| pending := writes; write_closed := closed |} [].

Definition sample_output : string :=
  "a" +:+ String LF ("bb" +:+ String LF "ccc").

(** * Statements, invariants and examples *)

(** ** Statements about the resolver, and a lab to try them on *)

(** The address 10.0.0.2, as [net.ParseIP] gives it. *)
Definition lab_address : list Byte.byte :=
  [Byte.x00; Byte.x00; Byte.x00; Byte.x00; Byte.x00; Byte.x00;
   Byte.x00; Byte.x00; Byte.x00; Byte.x00; Byte.xff; Byte.xff;
   Byte.x0a; Byte.x00; Byte.x00; Byte.x02].

(** [net.ParseIP] on the one address the lab reports. *)
Definition lab_ParseIP (s : string) : IP :=
  if String.eqb s "10.0.0.2" then Some lab_address else None.

(** The first inspection fails, the later ones answer. *)
Definition lab_inspect (n : nat) (_ : string) : inspect_outcome :=
  match n with
  | O => InspectFailed "exit status 1"
  | S _ =>
      InspectOutput (inr [{| Address := "10.0.0.2"; IFName := "eth0" |}])
                    (inr [{| Internal := 5432; External := 55000 |}])
  end.

(** The configuration the lab reports. *)
Definition lab_config : NetConfig :=
  {| Interfaces := {[ "eth0" := Some lab_address ]};
     ExposedPorts := {[ 5432 := 55000 ]} |}.

(** The handle [New] makes for the script test.mlab, and its world. *)
Definition fresh_lab : MLab * World :=
  new_lab false "test.mlab" [] "/tmp/tmlab.1" ∅.

(** The handle once its configuration has been resolved. *)
Definition resolved_lab : MLab := set_netConfig (fst fresh_lab) (Some lab_config).

(** C9 as it is stated: eth0 first, else the address of some interface, and
    nil exactly when there are no interfaces. *)
Definition primary_address_as_stated : Prop :=
  ∀ map_range : gmap string IP → list (string * IP),
    (∀ m, map_range m ≡ₚ map_to_list m) →
    ∀ n : NetConfig,
      (∀ ip, Interfaces n !! "eth0" = Some ip →
         NetConfig_IP map_range (Some n) = ip)
      ∧ (Interfaces n !! "eth0" = None → Interfaces n ≠ ∅ →
         ∃ name, Interfaces n !! name = Some (NetConfig_IP map_range (Some n)))
      ∧ (NetConfig_IP map_range (Some n) = None ↔ Interfaces n = ∅).

(** C1 as it is stated: the routed answer exactly when MLAB_HOST does not
    begin with the prefix, the forwarding path when it does. *)
Definition routed_unless_unix_prefix : Prop :=
  ∀ (map_range : gmap string IP → list (string * IP))
    (ParseIP : string → IP) (inspect : nat → string → inspect_outcome)
    (host : string) (port : Z) (m : MLab) (w : World) conf ip m' w',
    (∀ m, map_range m ≡ₚ map_to_list m) →
    MLab_NetConfig ParseIP inspect m w = ((Some conf, None), m', w') →
    NetConfig_IP map_range (Some conf) = Some ip →
    (¬ (∃ rest, host = "unix:" +:+ rest) →
       GetAddressPort map_range ParseIP inspect host port m w
       = (Ok (Some ip, port, None), m', w'))
    ∧ ((∃ rest, host = "unix:" +:+ rest) →
       GetAddressPort map_range ParseIP inspect host port m w
       = (port_forwarding (Some conf) port, m', w')).

(** ** The invariant of the life cycle, and starts to try *)

(** The [sync.Once] of a reader has run exactly when its channel is closed. *)
Definition reader_consistent (b : blockingReader) : Prop :=
  once_done b = chan_closed (c b).

(** What holds of a handle and its world from [New] on: the channel is
    closed exactly when one of the two [close] statements has run, once; a
    pending exit monitor has a process to wait for and has not closed the
    channel; a command whose [Stdout] is not set has not been started; the
    exit monitor has fired only for a process that has exited; and the readers
    to be closed are consistent. *)
Definition lifecycle_inv (s : MLab * World) : Prop :=
  let '(m, w) := s in
  (fired_on_spawn_failure w + fired_by_monitor w
   = if chan_closed (closechan m) then 1 else 0)%nat
  ∧ (monitor_pending w = true →
     chan_closed (closechan m) = false ∧ is_Some (Process (cmd m))
     ∧ proc w ≠ NotSpawned)
  ∧ (Cmd_Stdout (cmd m) = false →
     chan_closed (closechan m) = false ∧ monitor_pending w = false
     ∧ Process (cmd m) = None)
  ∧ (Process (cmd m) = None → proc w = NotSpawned)
  ∧ (proc w ≠ NotSpawned →
     monitor_pending w = true ∨ fired_by_monitor w = 1%nat)
  ∧ (fired_by_monitor w = 1%nat → ∃ desc, proc w = Exited desc)
  ∧ Forall reader_consistent (toBeClosed m).





(** ** The invariant of a pool of callers of the blocking reader *)

(** How a pool of callers evolves: a goroutine begins a [Read] or a [Close],
    or a goroutine makes a step. *)
Inductive evolves : pool → pool → Prop :=
| evolves_refl s : evolves s s
| evolves_Read s s' : evolves s s' → evolves s (spawn ReadRecv s')
| evolves_Close s s' : evolves s s' → evolves s (spawn OnceLoad s')
| evolves_step s s' i s'' :
    evolves s s' → thread_step i s' = Some (Ok s'') → evolves s s''.

(** The gate is released: the channel of the reader is closed. *)
Definition released (s : pool) : bool := chan_closed (c (reader s)).

(** What holds in every state of the pool: the channel was closed once if
    it is closed, and never otherwise; [o.done] is set only after the close;
    only the holder of the mutex is between [Lock] and [Unlock]; a goroutine
    about to close the channel finds it open; between the close and the store
    to [o.done] the closer is at the store; and calls have returned what they
    should. *)
Record pool_inv (s : pool) : Prop := mkPoolInv {
  inv_broadcasts : broadcasts s = if released s then 1%nat else 0%nat;
  inv_done : once_done (reader s) = true → released s = true;
  inv_exclusive : ∀ i p,
    threads s !! i = Some p → in_critical p = true → mutex s = Some i;
  inv_holder : ∀ i,
    mutex s = Some i → ∃ p, threads s !! i = Some p ∧ in_critical p = true;
  inv_call : ∀ i,
    threads s !! i = Some OnceCall →
    once_done (reader s) = false ∧ released s = false;
  inv_store : ∀ i,
    threads s !! i = Some OnceStore →
    once_done (reader s) = false ∧ released s = true;
  inv_pending_store :
    released s = true → once_done (reader s) = false →
    ∃ i, threads s !! i = Some OnceStore;
  inv_unlock : ∀ i,
    threads s !! i = Some OnceUnlock → once_done (reader s) = true;
  inv_read : ∀ i n e,
    threads s !! i = Some (ReadDone n e) →
    n = 0 ∧ e = Some EOF ∧ released s = true;
  inv_closed : ∀ i e,
    threads s !! i = Some (CloseDone e) →
    e = None ∧ once_done (reader s) = true
}.

(** A blocked [Read] and two calls of [Close]: the first has closed the
    channel and set [o.done], and still holds the mutex the second waits
    for. *)
Definition gate_example : pool :=
  match schedule [0; 1; 2; 1; 1; 1; 1; 2]%nat
          (spawn OnceLoad (spawn OnceLoad (spawn ReadRecv initial_pool))) with
  | Ok s => s
  | _ => initial_pool
  end.

(** ** The writes made to the line logger *)

(** The bytes written, one write after the other. *)
Definition written (writes : list string) : string :=
  fold_right String.append "" writes.

(** Every way of cutting a text into non-empty writes. *)
Fixpoint partitions (s : string) : list (list string) :=
  match s with
  | EmptyString => [[]]
  | String a rest =>
      flat_map (λ p, match p with
                     | [] => [[String a ""]]
                     | w :: ws => [String a "" :: w :: ws; String a w :: ws]
                     end)
               (partitions rest)
  end.

(** Outcomes of the logger can be compared. *)
Global Instance logger_outcome_eq_dec : EqDecision logger_outcome.
Proof. solve_decision. Defined.

(** The logger, with fuel 16, ends with [r] on these writes. *)
Definition logger_gives (closed : bool) (r : logger_outcome)
    (writes : list string) : bool :=
  bool_decide (NewLineLogger 16 writes closed = Some r).

(** * Properties *)

(** ** The addressing mode *)

(** [strings.HasPrefix] with the prefix of a unix socket address: the text
    starts with it. *)
Lemma HasPrefix_unix (s : string) :
  HasPrefix s "unix:" = true ↔ ∃ rest, s = "unix:" +:+ rest.
Proof.
  unfold HasPrefix. split.
  - destruct s as [|a1 [|a2 [|a3 [|a4 [|a5 rest]]]]]; simpl;
      try discriminate.
    intros H. exists rest.
    assert (Hsub : substring 0 0 rest = "") by (destruct rest; reflexivity).
    rewrite Hsub in H.
    repeat match type of H with
           | context [Ascii.eqb ?a ?b] =>
               destruct (Ascii.eqb_spec a b); [subst|discriminate]
           end.
    reflexivity.
  - intros [rest ->]. destruct rest; reflexivity.
Qed.

Lemma NeedForwarding_unix (host : string) :
  NeedForwarding host = false ↔ ∃ rest, host = "unix:" +:+ rest.
Proof.
  unfold NeedForwarding. rewrite <- HasPrefix_unix.
  destruct (HasPrefix host "unix:"); simpl; split; congruence.
Qed.


(** ** What the life cycle leaves alone *)

Ltac lifecycle_cases :=
  repeat first
    [ progress simplify_eq /=
    | match goal with
      | H : context [match ?x with _ => _ end] |- _ => destruct x eqn:?
      | H : context [if ?x then _ else _] |- _ => destruct x eqn:?
      | |- context [match ?x with _ => _ end] => destruct x eqn:?
      | |- context [if ?x then _ else _] => destruct x eqn:?
      end ];
  try done.

(** [doStart] writes neither the cached configuration nor the name of the
    identifier file, and runs no inspection. *)
Lemma MLab_doStart_frame env m w r m' w' :
  MLab_doStart env m w = Ok (r, m', w') →
  netConfig m' = netConfig m ∧ inspections w' = inspections w
  ∧ idfile m' = idfile m.
Proof.
  unfold MLab_doStart, wire_streams, launched, Cmd_StdoutPipe, Cmd_Start,
    exit_monitor, ReadFile, close_chan, Result_bind.
  intros H. lifecycle_cases.
Qed.

Lemma MLab_Close_frame m w r m' w' :
  MLab_Close m w = Ok (r, m', w') →
  netConfig m' = netConfig m ∧ inspections w' = inspections w
  ∧ idfile m' = idfile m.
Proof.
  unfold MLab_Close, Process_Kill, MLab_Log.
  intros H. lifecycle_cases.
Qed.

Lemma step_frame e m w m' w' :
  step e (m, w) = Ok (m', w') →
  netConfig m' = netConfig m ∧ inspections w' = inspections w
  ∧ idfile m' = idfile m.
Proof.
  destruct e as [env| |desc|]; simpl; unfold Result_bind.
  - destruct (MLab_doStart env m w) as [[[r m1] w1]| |] eqn:Hs; [|done..].
    intros [= <- <-]. by eapply MLab_doStart_frame.
  - destruct (MLab_Close m w) as [[[r m1] w1]| |] eqn:Hs; [|done..].
    intros [= <- <-]. by eapply MLab_Close_frame.
  - destruct (proc w); by intros [= <- <-].
  - unfold exit_monitor, close_chan, Result_bind. intros H. lifecycle_cases.
Qed.

Lemma run_cons e evs s :
  run (e :: evs) s = Result_bind (step e s) (run evs).
Proof. reflexivity. Qed.

Lemma run_frame evs m w m' w' :
  run evs (m, w) = Ok (m', w') →
  netConfig m' = netConfig m ∧ inspections w' = inspections w
  ∧ idfile m' = idfile m.
Proof.
  revert m w. induction evs as [|e evs IH]; intros m w.
  - by intros [= <- <-].
  - rewrite run_cons. unfold Result_bind.
    destruct (step e (m, w)) as [[m1 w1]| |] eqn:Hs; [|done..].
    intros Hr. apply step_frame in Hs as (? & ? & ?).
    apply IH in Hr as (? & ? & ?). repeat split; congruence.
Qed.

Section ResolverProperties.

Variable map_range : gmap string IP → list (string * IP).
Hypothesis map_range_perm : ∀ m, map_range m ≡ₚ map_to_list m.
Variable ParseIP : string → IP.
Variable inspect : nat → string → inspect_outcome.

(** The first entry of the iteration is an entry of the map. *)
Lemma map_range_head (m : gmap string IP) k ip rest :
  map_range m = (k, ip) :: rest → m !! k = Some ip.
Proof.
  intros Hr. apply elem_of_map_to_list. rewrite <- map_range_perm, Hr.
  apply list_elem_of_here.
Qed.

Lemma map_range_nil (m : gmap string IP) : map_range m = [] → m = ∅.
Proof.
  intros Hr. apply map_to_list_empty_iff.
  apply Permutation_nil_r. rewrite <- map_range_perm, Hr. reflexivity.
Qed.

Lemma NetConfig_IP_eth0 (n : NetConfig) ip :
  Interfaces n !! "eth0" = Some ip → NetConfig_IP map_range (Some n) = ip.
Proof.
  intros He. unfold NetConfig_IP.
  destruct (decide (size (Interfaces n) = 0%nat)) as [Hz|_].
  - apply map_size_empty_iff in Hz. rewrite Hz, lookup_empty in He.
    discriminate.
  - by rewrite He.
Qed.

Lemma NetConfig_IP_empty (n : NetConfig) :
  Interfaces n = ∅ → NetConfig_IP map_range (Some n) = None.
Proof.
  intros He. unfold NetConfig_IP. rewrite He, map_size_empty.
  destruct (decide (0%nat = 0%nat)); [reflexivity | contradiction].
Qed.

(** Whatever is returned for a configuration with interfaces is the recorded
    address of one of them. *)
Lemma NetConfig_IP_recorded (n : NetConfig) :
  Interfaces n ≠ ∅ → ∃ name, Interfaces n !! name = Some (NetConfig_IP map_range (Some n)).
Proof.
  intros Hne. unfold NetConfig_IP.
  destruct (decide (size (Interfaces n) = 0%nat)) as [Hz|_].
  { by apply map_size_empty_iff in Hz. }
  destruct (Interfaces n !! "eth0") as [ip|] eqn:He; [by exists "eth0"|].
  destruct (map_range (Interfaces n)) as [|[k ip] rest] eqn:Hr.
  - by apply map_range_nil in Hr.
  - exists k. by eapply map_range_head.
Qed.

(** C9, as the code has it: the address recorded for eth0 is returned whenever
    that interface is present; otherwise, when there is an interface, the
    address recorded for one of them is returned; with no interfaces the result
    is nil. The result is nil exactly when there are no interfaces provided no
    interface is recorded with a nil address; a nil address recorded for the
    selected interface is returned as it is. *)
Theorem NetConfig_IP_selection (n : NetConfig) :
  (∀ ip, Interfaces n !! "eth0" = Some ip → NetConfig_IP map_range (Some n) = ip)
  ∧ (Interfaces n !! "eth0" = None → Interfaces n ≠ ∅ →
     ∃ name, Interfaces n !! name = Some (NetConfig_IP map_range (Some n)))
  ∧ (Interfaces n = ∅ → NetConfig_IP map_range (Some n) = None)
  ∧ ((∀ name ip, Interfaces n !! name = Some ip → ip ≠ None) →
     (NetConfig_IP map_range (Some n) = None ↔ Interfaces n = ∅)).
Proof.
  split; [apply NetConfig_IP_eth0|].
  split; [intros _; apply NetConfig_IP_recorded|].
  split; [apply NetConfig_IP_empty|].
  intros Hnonnil. split; [|apply NetConfig_IP_empty].
  intros Hnone. destruct (decide (Interfaces n = ∅)) as [|Hne]; [done|].
  destruct (NetConfig_IP_recorded n Hne) as [name Hname].
  by apply Hnonnil in Hname.
Qed.

(** *** Resolution and its cache *)

(** [getNetConfig] runs the inspection once, and returns a configuration
    exactly when it returns no error. *)
Lemma getNetConfig_inspects (m : MLab) (w : World) :
  snd (getNetConfig ParseIP inspect m w) = count_inspection w.
Proof.
  unfold getNetConfig.
  destruct (inspect _ _) as [e|[e|ifcs] [e'|ports]]; simpl; try reflexivity;
    destruct (fill_interfaces _ _ _); reflexivity.
Qed.

Lemma getNetConfig_result (m : MLab) (w : World) nc err w' :
  getNetConfig ParseIP inspect m w = ((nc, err), w') →
  (err = None ∧ is_Some nc) ∨ (is_Some err ∧ nc = None).
Proof.
  unfold getNetConfig.
  destruct (inspect _ _) as [e|[e|ifcs] [e'|ports]]; simpl;
    try destruct (fill_interfaces _ _ _); intros [= <- <- <-]; eauto.
Qed.

Lemma MLab_NetConfig_cached (m : MLab) (w : World) nc :
  netConfig m = Some nc → MLab_NetConfig ParseIP inspect m w = ((Some nc, None), m, w).
Proof. intros H. unfold MLab_NetConfig. by rewrite H. Qed.

Lemma MLab_NetConfig_ok (m : MLab) (w : World) nc m' w' :
  MLab_NetConfig ParseIP inspect m w = ((nc, None), m', w') →
  ∃ conf, nc = Some conf ∧ netConfig m' = Some conf.
Proof.
  unfold MLab_NetConfig.
  destruct (netConfig m) as [conf|] eqn:Hc.
  - intros [= <- <- <-]. eauto.
  - destruct (getNetConfig ParseIP inspect m w) as [[nc0 err0] w0] eqn:Hg.
    destruct (getNetConfig_result _ _ _ _ _ Hg) as [[-> [conf ->]]|[[e ->] ->]].
    + intros [= <- <- <-]. eauto.
    + intros [= ].
Qed.

(** A successful resolution returns a configuration, and errors come without
    one. *)
Lemma MLab_NetConfig_error (m : MLab) (w : World) nc e m' w' :
  MLab_NetConfig ParseIP inspect m w = ((nc, Some e), m', w') →
  netConfig m = None ∧ m' = m ∧ w' = count_inspection w
  ∧ getNetConfig ParseIP inspect m w = ((nc, Some e), w') ∧ nc = None.
Proof.
  unfold MLab_NetConfig.
  destruct (netConfig m) as [conf|] eqn:Hc; [intros [= ]|].
  pose proof (getNetConfig_inspects m w) as Hi.
  destruct (getNetConfig ParseIP inspect m w) as [[nc0 err0] w0] eqn:Hg.
  simpl in Hi. subst w0.
  destruct (getNetConfig_result _ _ _ _ _ Hg) as [[-> [conf ->]]|[[e' ->] ->]];
    intros [= <- <- <- <-]; done.
Qed.

(** C1, as the code has it: [GetAddressPort] takes the routed path (the
    primary address, unchanged, with the internal port, untranslated) exactly
    when MLAB_HOST begins with the prefix of a unix socket, and a primary
    address exists; when MLAB_HOST does not begin with that prefix, or there is
    no primary address, it takes the port-forwarding path. *)
Theorem GetAddressPort_addressing_mode (host : string) (port : Z)
    (m : MLab) (w : World) conf m' w' :
  MLab_NetConfig ParseIP inspect m w = ((Some conf, None), m', w') →
  ((∃ rest, host = "unix:" +:+ rest) →
     ∀ ip, NetConfig_IP map_range (Some conf) = Some ip →
       GetAddressPort map_range ParseIP inspect host port m w
       = (Ok (Some ip, port, None), m', w'))
  ∧ (¬ (∃ rest, host = "unix:" +:+ rest) →
       GetAddressPort map_range ParseIP inspect host port m w
       = (port_forwarding (Some conf) port, m', w'))
  ∧ (NetConfig_IP map_range (Some conf) = None →
       GetAddressPort map_range ParseIP inspect host port m w
       = (port_forwarding (Some conf) port, m', w')).
Proof.
  intros Hr. unfold GetAddressPort. rewrite Hr. split; [|split].
  - intros Hu ip Hip. apply NeedForwarding_unix in Hu. by rewrite Hu, Hip.
  - intros Hu. rewrite <- NeedForwarding_unix in Hu.
    destruct (NeedForwarding host); [done|]. by destruct Hu.
  - intros ->. by destruct (negb (NeedForwarding host)).
Qed.


(** C5: after one successful resolution, every later call of [NetConfig], in
    whatever world, returns the cached configuration, leaves the handle as it
    is and runs no inspection; [GetAddressPort] and the life cycle of the
    handle leave the cached configuration as it is, and run no inspection
    either. *)
Theorem NetConfig_memoized (m : MLab) (w : World) nc m1 w1 :
  MLab_NetConfig ParseIP inspect m w = ((nc, None), m1, w1) →
  ∃ conf, nc = Some conf ∧ netConfig m1 = Some conf
  ∧ (∀ w2, MLab_NetConfig ParseIP inspect m1 w2 = ((Some conf, None), m1, w2))
  ∧ (∀ host port w2,
       snd (GetAddressPort map_range ParseIP inspect host port m1 w2) = w2
       ∧ snd (fst (GetAddressPort map_range ParseIP inspect host port m1 w2))
         = m1)
  ∧ (∀ evs w2 m3 w3, run evs (m1, w2) = Ok (m3, w3) →
       netConfig m3 = Some conf ∧ inspections w3 = inspections w2
       ∧ MLab_NetConfig ParseIP inspect m3 w3 = ((Some conf, None), m3, w3)).
Proof.
  intros Hr. destruct (MLab_NetConfig_ok _ _ _ _ _ Hr) as (conf & -> & Hc).
  exists conf. split; [done|]. split; [done|].
  split; [intros w2; by apply MLab_NetConfig_cached|].
  split.
  - intros host port w2. unfold GetAddressPort.
    rewrite (MLab_NetConfig_cached m1 w2 conf Hc).
    destruct (negb (NeedForwarding host)); [|done].
    by destruct (NetConfig_IP map_range (Some conf)).
  - intros evs w2 m3 w3 Hrun.
    apply run_frame in Hrun as (Hn & Hi & _). rewrite Hc in Hn.
    split; [done|]. split; [done|]. by apply MLab_NetConfig_cached.
Qed.

(** C10: a resolution that fails is not cached: the handle is left as it was,
    with no configuration, the error of [getNetConfig] is the one returned,
    and the next call runs the inspection again; a configuration found in the
    handle after a call was there before it or is the one the call returned
    without an error. *)
Theorem NetConfig_failure_not_cached (m : MLab) (w : World) :
  (∀ nc e m1 w1,
     MLab_NetConfig ParseIP inspect m w = ((nc, Some e), m1, w1) →
     nc = None ∧ m1 = m ∧ netConfig m1 = None
     ∧ getNetConfig ParseIP inspect m w = ((None, Some e), w1)
     ∧ inspections w1 = S (inspections w)
     ∧ ∀ r m2 w2, MLab_NetConfig ParseIP inspect m1 w1 = (r, m2, w2) →
         getNetConfig ParseIP inspect m1 w1 = (r, w2)
         ∧ inspections w2 = S (inspections w1))
  ∧ (∀ r m1 w1 conf,
       MLab_NetConfig ParseIP inspect m w = (r, m1, w1) →
       netConfig m1 = Some conf →
       netConfig m = Some conf ∨ r = (Some conf, None)).
Proof.
  split.
  - intros nc e m1 w1 Hr.
    apply MLab_NetConfig_error in Hr as (Hc & -> & -> & Hg & ->).
    do 5 (split; [done|]).
    intros r m2 w2. unfold MLab_NetConfig. rewrite Hc.
    pose proof (getNetConfig_inspects m (count_inspection w)) as Hi.
    destruct (getNetConfig ParseIP inspect m (count_inspection w))
      as [[nc0 err0] w0].
    simpl in Hi. subst w0. destruct err0; by intros [= <- <- <-].
  - intros r m1 w1 conf. unfold MLab_NetConfig.
    destruct (netConfig m) as [c0|] eqn:Hc.
    + intros [= <- <- <-] Hm. left. congruence.
    + destruct (getNetConfig ParseIP inspect m w) as [[nc0 err0] w0] eqn:Hg.
      destruct (getNetConfig_result _ _ _ _ _ Hg) as [[-> [c1 ->]]|[[e ->] ->]];
        intros [= <- <- <-]; simpl; intros Hm; [right|]; congruence.
Qed.

End ResolverProperties.

(** *** A lab at 10.0.0.2 with port 5432 forwarded to 55000 *)

Lemma map_to_list_perm (m : gmap string IP) : map_to_list m ≡ₚ map_to_list m.
Proof. reflexivity. Qed.

Lemma lab_config_IP : NetConfig_IP map_to_list (Some lab_config) = Some lab_address.
Proof.
  apply (NetConfig_IP_eth0 map_to_list lab_config).
  apply lookup_singleton_eq.
Qed.

Lemma unix_socket_host :
  ∃ rest, "unix:///var/run/mlab.sock" = "unix:" +:+ rest.
Proof. by exists "///var/run/mlab.sock". Qed.

Lemma tcp_host_not_unix : ¬ ∃ rest, "tcp://10.0.0.1:2375" = "unix:" +:+ rest.
Proof. intros [rest H]. discriminate H. Qed.

Lemma NetConfig_IP_selection_witness :
  NetConfig_IP map_to_list (Some lab_config) = Some lab_address
  ∧ (NetConfig_IP map_to_list (Some lab_config) = None
     ↔ Interfaces lab_config = ∅).
Proof.
  destruct (NetConfig_IP_selection map_to_list map_to_list_perm lab_config)
    as (Heth0 & _ & _ & Hnone).
  split.
  - apply Heth0. apply lookup_singleton_eq.
  - apply Hnone. unfold lab_config. cbn [Interfaces].
    intros name ip [_ <-]%lookup_singleton_Some. discriminate.
Defined.

(** A configuration whose eth0 is recorded with a nil address has an
    interface, and nil for its primary address. *)
Lemma primary_address_as_stated_fails : ¬ primary_address_as_stated.
Proof.
  intros H.
  destruct (H map_to_list map_to_list_perm
              {| Interfaces := {[ "eth0" := None ]}; ExposedPorts := ∅ |})
    as (Heth0 & _ & Hnone). simpl in *.
  specialize (Heth0 None (lookup_singleton_eq _ _)).
  apply Hnone in Heth0.
  by apply (map_non_empty_singleton "eth0" (None : IP)).
Qed.

Lemma resolved_lab_NetConfig (w : World) :
  MLab_NetConfig lab_ParseIP lab_inspect resolved_lab w
  = ((Some lab_config, None), resolved_lab, w).
Proof. reflexivity. Qed.

Lemma lab_forwarded_over_tcp :
  GetAddressPort map_to_list lab_ParseIP lab_inspect
    "tcp://10.0.0.1:2375" 5432 resolved_lab (snd fresh_lab)
  = (Ok (loopbackAddress, 55000, None), resolved_lab, snd fresh_lab).
Proof.
  unfold GetAddressPort. rewrite resolved_lab_NetConfig.
  cbn [NeedForwarding HasPrefix negb]. unfold port_forwarding, lab_config.
  cbn [ExposedPorts]. by rewrite lookup_singleton_eq.
Qed.

Lemma GetAddressPort_addressing_mode_witness :
  GetAddressPort map_to_list lab_ParseIP lab_inspect
    "unix:///var/run/mlab.sock" 5432 resolved_lab (snd fresh_lab)
  = (Ok (Some lab_address, 5432, None), resolved_lab, snd fresh_lab)
  ∧ GetAddressPort map_to_list lab_ParseIP lab_inspect
      "tcp://10.0.0.1:2375" 5432 resolved_lab (snd fresh_lab)
    = (port_forwarding (Some lab_config) 5432, resolved_lab, snd fresh_lab).
Proof.
  split.
  - destruct (GetAddressPort_addressing_mode map_to_list lab_ParseIP
                lab_inspect "unix:///var/run/mlab.sock" 5432 resolved_lab
                (snd fresh_lab) lab_config resolved_lab (snd fresh_lab)
                (resolved_lab_NetConfig _)) as (Hrouted & _ & _).
    apply Hrouted; [exact unix_socket_host | exact lab_config_IP].
  - destruct (GetAddressPort_addressing_mode map_to_list lab_ParseIP
                lab_inspect "tcp://10.0.0.1:2375" 5432 resolved_lab
                (snd fresh_lab) lab_config resolved_lab (snd fresh_lab)
                (resolved_lab_NetConfig _)) as (_ & Hforwarded & _).
    apply Hforwarded. exact tcp_host_not_unix.
Defined.

(** With MLAB_HOST naming a TCP host, port 5432 of the lab is reached at
    127.0.0.1:55000, not at 10.0.0.2:5432; with a unix socket it is the other
    way round. *)
Lemma routed_unless_unix_prefix_fails : ¬ routed_unless_unix_prefix.
Proof.
  intros H.
  destruct (H map_to_list lab_ParseIP lab_inspect "tcp://10.0.0.1:2375" 5432
              resolved_lab (snd fresh_lab) lab_config lab_address
              resolved_lab (snd fresh_lab) map_to_list_perm
              (resolved_lab_NetConfig _) lab_config_IP) as [Hrouted _].
  specialize (Hrouted tcp_host_not_unix).
  rewrite lab_forwarded_over_tcp in Hrouted. discriminate.
Qed.

(** *** The resolver on the lab at 10.0.0.2 *)


(** The first inspection of the fresh lab fails. *)
Lemma fresh_lab_inspection_fails :
  MLab_NetConfig lab_ParseIP lab_inspect (fst fresh_lab) (snd fresh_lab)
  = ((None, Some "exit status 1"), fst fresh_lab,
     count_inspection (snd fresh_lab)).
Proof. reflexivity. Qed.

(** The second one answers. *)
Lemma fresh_lab_inspection_answers :
  MLab_NetConfig lab_ParseIP lab_inspect (fst fresh_lab)
    (count_inspection (snd fresh_lab))
  = ((Some lab_config, None), resolved_lab,
     count_inspection (count_inspection (snd fresh_lab))).
Proof. reflexivity. Qed.

Lemma NetConfig_memoized_witness :
  netConfig resolved_lab = Some lab_config
  ∧ MLab_NetConfig lab_ParseIP lab_inspect resolved_lab
      (count_inspection (count_inspection (snd fresh_lab)))
    = ((Some lab_config, None), resolved_lab,
       count_inspection (count_inspection (snd fresh_lab))).
Proof.
  destruct (NetConfig_memoized map_to_list lab_ParseIP lab_inspect
              (fst fresh_lab) (count_inspection (snd fresh_lab))
              (Some lab_config) resolved_lab
              (count_inspection (count_inspection (snd fresh_lab)))
              fresh_lab_inspection_answers)
    as (conf & Hconf & Hcached & Hagain & _).
  injection Hconf as <-. split; [exact Hcached|apply Hagain].
Defined.

Lemma NetConfig_failure_not_cached_witness :
  netConfig (fst fresh_lab) = None
  ∧ inspections (count_inspection (snd fresh_lab))
    = S (inspections (snd fresh_lab)).
Proof.
  destruct (NetConfig_failure_not_cached lab_ParseIP lab_inspect
              (fst fresh_lab) (snd fresh_lab)) as [Hfail _].
  destruct (Hfail None "exit status 1" (fst fresh_lab)
              (count_inspection (snd fresh_lab)) fresh_lab_inspection_fails)
    as (_ & _ & Hnone & _ & Hcount & _).
  by split.
Defined.

(** ** The life cycle *)




Lemma close_all_consistent cs :
  Forall reader_consistent cs →
  ∃ cs', close_all cs = Ok cs'
         ∧ Forall reader_consistent cs'
         ∧ Forall (λ b, chan_closed (c b) = true) cs'.
Proof.
  induction 1 as [|b cs Hb _ (cs' & Hcs & Hcons & Hclosed)].
  - exists []. by repeat split.
  - unfold reader_consistent in Hb. cbn [close_all].
    unfold blockingReader_Close, close_chan.
    destruct (once_done b) eqn:Hd.
    + rewrite Hcs. eexists. split; [reflexivity|].
      split; constructor; unfold reader_consistent; try done; congruence.
    + rewrite <- Hb. cbn [Result_bind]. rewrite Hcs.
      eexists. split; [reflexivity|]. split; by constructor.
Qed.

Lemma MLab_Close_inv m w r m' w' :
  lifecycle_inv (m, w) →
  MLab_Close m w = Ok (r, m', w') →
  lifecycle_inv (m', w').
Proof.
  unfold lifecycle_inv. intros (I1 & I2 & I3 & I4 & I5 & I6 & I7).
  destruct (close_all_consistent _ I7) as (cs' & Hcs & Hcons & _).
  unfold MLab_Close, MLab_IsClosed, Process_Kill, MLab_Log. rewrite Hcs.
  destruct (chan_closed (closechan m)) eqn:Hc; cbn [negb].
  - intros [= <- <- <-]. destruct (Logger m); simpl; rewrite Hc;
      intuition congruence.
  - destruct (Process (cmd m)) as [p|] eqn:Hp; [|done].
    destruct (Logger m); simpl; destruct (proc w) eqn:Hpr;
      intros [= <- <- <-]; simpl; rewrite ?Hc, ?Hp, ?Hpr;
      repeat split; intros; simplify_eq; eauto; try congruence;
      intuition congruence.
Qed.

Lemma New_new_lab tb script args idfname fs :
  New tb script args (inr idfname) (initial_world fs)
  = (Ok (Some (fst (new_lab tb script args idfname fs)), None),
     snd (new_lab tb script args idfname fs)).
Proof. reflexivity. Qed.







Lemma MLab_Close_returns m w :
  lifecycle_inv (m, w) →
  MLab_IsClosed m = true ∨ is_Some (Process (cmd m)) →
  ∃ m' w', MLab_Close m w = Ok (None, m', w')
           ∧ files w' !! idfile m = None
           ∧ Forall (λ b, chan_closed (c b) = true) (toBeClosed m').
Proof.
  intros (I1 & I2 & I3 & I4 & I5 & I6 & I7) Hok.
  destruct (close_all_consistent _ I7) as (cs' & Hcs & _ & Hclosed).
  unfold MLab_Close, Process_Kill. rewrite Hcs.
  destruct (MLab_IsClosed m) eqn:Hc; cbn [negb].
  - eexists _, _. split; [reflexivity|]. simpl. split; [|done].
    apply lookup_delete_eq.
  - destruct Hok as [|[p Hp]]; [done|]. rewrite Hp.
    unfold MLab_Log. destruct (Logger m); simpl; destruct (proc w);
      eexists _, _; (split; [reflexivity|]); simpl;
      (split; [|done]); apply lookup_delete_eq.
Qed.





(** C2 at a handle that was never started: [m.cmd.Process] is nil and the
    completion signal has not fired, so [Close] dereferences the nil process
    and panics, before it closes anything or removes the identifier file. *)
Theorem Close_before_Start_panics tb script args idfname fs :
  MLab_Close (fst (new_lab tb script args idfname fs))
             (snd (new_lab tb script args idfname fs))
  = Panic nil_dereference
  ∧ files (snd (new_lab tb script args idfname fs)) !! idfname = Some "".
Proof.
  split; [reflexivity|]. unfold new_lab. simpl. apply lookup_insert_eq.
Qed.

(** *** Starting a lab whose launcher writes no identifier *)





(** *** A lab that starts, is closed, and whose process is then seen to have
    exited *)



(** From every state in which the process was started, or the signal has
    fired, [Close] returns nil and removes the identifier file, and so does a
    second [Close]. *)
Lemma MLab_Close_again m w :
  lifecycle_inv (m, w) →
  MLab_IsClosed m = true ∨ is_Some (Process (cmd m)) →
  ∃ m1 w1 m2 w2,
    MLab_Close m w = Ok (None, m1, w1)
    ∧ MLab_Close m1 w1 = Ok (None, m2, w2)
    ∧ files w1 !! idfile m = None ∧ files w2 !! idfile m = None.
Proof.
  intros Inv Hok.
  destruct (MLab_Close_returns m w Inv Hok) as (m1 & w1 & Hc1 & Hf1 & _).
  pose proof (MLab_Close_inv _ _ _ _ _ Inv Hc1) as Inv1.
  pose proof (MLab_Close_frame _ _ _ _ _ Hc1) as (_ & _ & Hid).
  assert (Hok1 : MLab_IsClosed m1 = true ∨ is_Some (Process (cmd m1))).
  { revert Hc1 Hok. unfold MLab_Close, MLab_IsClosed, Process_Kill.
    intros Hc1 Hok. lifecycle_cases; simpl; intuition congruence. }
  destruct (MLab_Close_returns m1 w1 Inv1 Hok1) as (m2 & w2 & Hc2 & Hf2 & _).
  exists m1, w1, m2, w2. rewrite Hid in Hf2. by repeat split.
Qed.

(** ** The blocking reader under concurrent callers *)

Lemma initial_pool_inv : pool_inv initial_pool.
Proof. by split. Qed.

Lemma spawn_lookup p s j q :
  threads (spawn p s) !! j = Some q →
  threads s !! j = Some q ∨ q = p.
Proof.
  unfold spawn. cbn [threads]. intros [H|[_ H]]%lookup_app_Some; [by left|].
  right. destruct (j - length (threads s))%nat; simplify_eq /=. done.
Qed.

Lemma spawn_inv p s :
  in_critical p = false → p ≠ OnceCall → p ≠ OnceStore → p ≠ OnceUnlock →
  (∀ n e, p ≠ ReadDone n e) → (∀ e, p ≠ CloseDone e) →
  pool_inv s → pool_inv (spawn p s).
Proof.
  intros Hcrit H1 H2 H3 H4 H5 [J1 J2 J3 J4 J5 J6 J7 J8 J9 J10].
  assert (Hold : ∀ j q, threads s !! j = Some q →
                        threads (spawn p s) !! j = Some q).
  { intros j q Hj. unfold spawn. cbn [threads].
    rewrite lookup_app_l; [done|]. by eapply lookup_lt_Some. }
  split; unfold released in *; cbn [reader mutex broadcasts spawn]; try done.
  - intros i q [Hq| ->]%spawn_lookup Hc; [eauto|congruence].
  - intros i Hm. destruct (J4 i Hm) as (q & Hq & Hc). eauto.
  - intros i [Hq|Hq]%spawn_lookup; [eauto|congruence].
  - intros i [Hq|Hq]%spawn_lookup; [eauto|congruence].
  - intros Hr Hd. destruct (J7 Hr Hd) as [i Hi]. eauto.
  - intros i [Hq|Hq]%spawn_lookup; [eauto|congruence].
  - intros i n e [Hq|Hq]%spawn_lookup; [eauto|]. by destruct (H4 n e).
  - intros i e [Hq|Hq]%spawn_lookup; [eauto|]. by destruct (H5 e).
Qed.

Lemma goto_lookup i p s j q :
  threads (goto i p s) !! j = Some q →
  (j = i ∧ q = p) ∨ (j ≠ i ∧ threads s !! j = Some q).
Proof.
  unfold goto. cbn [threads].
  intros [(-> & -> & _)|[Hne Hj]]%list_lookup_insert_Some; [by left|].
  right. by split.
Qed.

Lemma goto_lookup_self i p p0 s :
  threads s !! i = Some p0 → threads (goto i p s) !! i = Some p.
Proof.
  intros Hi. unfold goto. cbn [threads].
  apply list_lookup_insert_eq. by eapply lookup_lt_Some.
Qed.

Lemma goto_lookup_other i p s j q :
  j ≠ i → threads s !! j = Some q → threads (goto i p s) !! j = Some q.
Proof.
  intros Hne Hj. unfold goto. cbn [threads].
  by rewrite list_lookup_insert_ne.
Qed.

Lemma goto_reader i p s : reader (goto i p s) = reader s.
Proof. reflexivity. Qed.

Lemma goto_mutex i p s : mutex (goto i p s) = mutex s.
Proof. reflexivity. Qed.

Lemma goto_broadcasts i p s : broadcasts (goto i p s) = broadcasts s.
Proof. reflexivity. Qed.

Ltac pool_fields :=
  unfold released in *;
  rewrite ?goto_reader, ?goto_mutex, ?goto_broadcasts;
  cbn [reader mutex broadcasts threads set_mutex set_reader
       count_broadcast once_done c chan_closed] in *.

(* a clause about every goroutine: the one that moved, or one that did not *)
Ltac pool_old :=
  match goal with
  | H : threads (goto _ _ _) !! _ = Some _ |- _ =>
      apply goto_lookup in H as [[? ?]|[? H]]; simplify_eq
  end.

(* a clause that names a goroutine: it is not the one that moved *)
Ltac pool_other Hi :=
  match goal with
  | H : threads _ !! ?j = Some _ |- ∃ _, _ =>
      eexists; repeat split;
      [apply goto_lookup_other; [|exact H]; intros ->; rewrite Hi in H;
       simplify_eq; done | try done ..]
  end.

Lemma thread_step_inv i s s' :
  pool_inv s → thread_step i s = Some (Ok s') → pool_inv s'.
Proof.
  intros [J1 J2 J3 J4 J5 J6 J7 J8 J9 J10].
  unfold thread_step. destruct (threads s !! i) as [p|] eqn:Hi; [|done].
  destruct p; try done.
  - (* ReadRecv *)
    unfold blockingReader_Read.
    destruct (chan_closed (c (reader s))) eqn:Hc; [|done].
    intros [= <-]. split; pool_fields; try done.
    all: try (intros; pool_old; eauto; fail).
    + intros j Hm. destruct (J4 j Hm) as (q & Hq & Hcr). pool_other Hi.
    + intros Hr Hd. destruct (J7 Hr Hd) as [j Hj]. pool_other Hi.
  - (* OnceLoad *)
    destruct (once_done (reader s)) eqn:Hd; intros [= <-];
      split; pool_fields; rewrite ?Hd; try done.
    all: try (intros; pool_old; eauto; fail).
    all: try (intros j Hm; destruct (J4 j Hm) as (q & Hq & Hcr);
              pool_other Hi).
    all: try (intros Hr Hd'; destruct (J7 Hr Hd') as [j Hj]; pool_other Hi).
  - (* OnceLock *)
    destruct (mutex s) as [k|] eqn:Hm; [done|]. intros [= <-].
    split; pool_fields; try done.
    all: try (intros; pool_old; eauto; fail).
    + intros j q Hj Hcr. pool_old; [done|].
      by specialize (J3 _ _ Hj Hcr).
    + intros j [= <-]. exists OnceCheck. split; [|done].
      by eapply goto_lookup_self.
    + intros Hr Hd'; destruct (J7 Hr Hd') as [j Hj]; pool_other Hi.
  - (* OnceCheck *)
    pose proof (J3 _ _ Hi eq_refl) as Hm.
    destruct (once_done (reader s)) eqn:Hd; intros [= <-];
      split; pool_fields; rewrite ?Hd; try done.
    all: try (intros; pool_old; eauto; fail).
    all: try (intros j Hm'; rewrite Hm in Hm'; injection Hm' as <-;
              eexists; split; [by eapply goto_lookup_self|done]).
    all: try (intros Hr Hd'; destruct (J7 Hr Hd') as [j Hj]; pool_other Hi).
    + intros j Hj. pool_old; [|eauto]. split; [done|].
      destruct (chan_closed (c (reader s))) eqn:Hc; [|done].
      destruct (J7 eq_refl eq_refl) as [k Hk].
      specialize (J3 _ _ Hk eq_refl). congruence.
  - (* OnceCall *)
    pose proof (J3 _ _ Hi eq_refl) as Hm.
    destruct (J5 _ Hi) as [Hd Hc]. pool_fields.
    unfold close_chan. rewrite Hc. intros [= <-].
    split; pool_fields; rewrite ?Hd, ?Hc; try done.
    all: try (intros; pool_old; eauto; fail).
    + by rewrite J1, Hc.
    + intros j Hm'. rewrite Hm in Hm'. injection Hm' as <-.
      eexists. split; [by eapply goto_lookup_self|done].
    + intros j Hj. pool_old.
      specialize (J3 _ _ Hj eq_refl). congruence.
    + intros _ _. exists i. by eapply goto_lookup_self.
    + intros j n e Hj. pool_old.
      destruct (J9 _ _ _ Hj) as (? & ? & ?). congruence.
    + intros j e Hj. pool_old. destruct (J10 _ _ Hj). congruence.
  - (* OnceStore *)
    pose proof (J3 _ _ Hi eq_refl) as Hm.
    destruct (J6 _ Hi) as [Hd Hc]. pool_fields.
    intros [= <-].
    split; pool_fields; rewrite ?Hd, ?Hc; try done.
    all: try (intros; pool_old; eauto; fail).
    + by rewrite J1, Hc.
    + intros j Hm'. rewrite Hm in Hm'. injection Hm' as <-.
      eexists. split; [by eapply goto_lookup_self|done].
    + intros j Hj. pool_old.
      specialize (J3 _ _ Hj eq_refl). congruence.
    + intros j Hj. pool_old.
      specialize (J3 _ _ Hj eq_refl). congruence.
    + intros j n e Hj. pool_old.
      destruct (J9 _ _ _ Hj) as (? & ? & ?). done.
    + intros j e Hj. pool_old. destruct (J10 _ _ Hj). congruence.
  - (* OnceUnlock *)
    pose proof (J3 _ _ Hi eq_refl) as Hm.
    pose proof (J8 _ Hi) as Hd.
    intros [= <-].
    split; pool_fields; try done.
    all: try (intros; pool_old; eauto; fail).
    + intros j q Hj Hcr. pool_old; [done..|].
      specialize (J3 _ _ Hj Hcr). congruence.
    + intros Hr Hd'. congruence.
Qed.

Lemma evolves_inv s s' : pool_inv s → evolves s s' → pool_inv s'.
Proof.
  intros Inv. induction 1 as [|s s' _ IH|s s' _ IH|s s' i s'' _ IH Hstep].
  - done.
  - apply spawn_inv; [done..|by apply IH].
  - apply spawn_inv; [done..|by apply IH].
  - eapply thread_step_inv; [by apply IH|done].
Qed.

Lemma thread_step_released i s s' :
  thread_step i s = Some (Ok s') → released s = true → released s' = true.
Proof.
  unfold thread_step, released, blockingReader_Read, close_chan.
  intros H Hr. rewrite Hr in H. lifecycle_cases.
Qed.

Lemma evolves_released s s' :
  evolves s s' → released s = true → released s' = true.
Proof.
  induction 1 as [|s s' _ IH|s s' _ IH|s s' i s'' _ IH Hstep]; try done.
  intros Hr. eapply thread_step_released; eauto.
Qed.

(** A goroutine that holds the mutex can move. *)
Lemma critical_moves i p s :
  pool_inv s → threads s !! i = Some p → in_critical p = true →
  ∃ s', thread_step i s = Some (Ok s').
Proof.
  intros [J1 J2 J3 J4 J5 J6 J7 J8 J9 J10] Hi Hcr. unfold thread_step.
  rewrite Hi. destruct p; try done.
  - destruct (once_done (reader s)); eauto.
  - destruct (J5 _ Hi) as [_ Hc]. unfold released in Hc.
    unfold close_chan. rewrite Hc. eauto.
  - eauto.
  - eauto.
Qed.

Lemma evolves_trans s1 s2 s3 : evolves s1 s2 → evolves s2 s3 → evolves s1 s3.
Proof.
  intros H12. induction 1; eauto using evolves.
Qed.

Lemma schedule_evolves order s s' : schedule order s = Ok s' → evolves s s'.
Proof.
  revert s'. induction order as [|i order IH] using rev_ind; intros s'.
  - intros [= <-]. constructor.
  - assert (Happ : ∀ l1 l2 s0, schedule (l1 ++ l2) s0
                     = Result_bind (schedule l1 s0) (schedule l2)).
    { induction l1 as [|j l1 IHl]; intros l2 s0; [done|]. simpl.
      destruct (thread_step j s0) as [[s1| |]|]; simpl; auto. }
    rewrite Happ. destruct (schedule order s) as [s1| |]; [|done..].
    simpl. destruct (thread_step i s1) as [[s2| |]|] eqn:Hs; try done.
    + intros [= <-]. eapply evolves_step; eauto.
    + intros [= <-]. auto.
Qed.

(** C3: in every state a pool of callers of one blocking reader can get into,
    no call panics; the channel has been closed at most once, and exactly
    once when the reader is released; while it is not released a [Read] is
    blocked; once it is released a [Read] returns at its next step, with no
    bytes and EOF, and every [Read] that has returned has returned that; every
    [Close] that has returned has returned nil, with the reader released;
    while a [Close] is in progress some [Close] can move; and a released
    reader stays released. *)
Theorem blockingReader_gate s :
  evolves initial_pool s →
  (∀ i r, thread_step i s = Some r → ∃ s', r = Ok s')
  ∧ (broadcasts s ≤ 1)%nat
  ∧ (released s = true ↔ broadcasts s = 1%nat)
  ∧ (released s = false →
     ∀ i, threads s !! i = Some ReadRecv → thread_step i s = None)
  ∧ (released s = true →
     ∀ i, threads s !! i = Some ReadRecv →
       thread_step i s = Some (Ok (goto i (ReadDone 0 (Some EOF)) s)))
  ∧ (∀ i n e, threads s !! i = Some (ReadDone n e) →
       n = 0 ∧ e = Some EOF ∧ released s = true)
  ∧ (∀ i e, threads s !! i = Some (CloseDone e) →
       e = None ∧ released s = true)
  ∧ ((∃ i p, threads s !! i = Some p ∧ closing p = true) →
     ∃ j p s', threads s !! j = Some p ∧ closing p = true
               ∧ thread_step j s = Some (Ok s'))
  ∧ (∀ s', evolves s s' →
       released s = true → released s' = true ∧ broadcasts s' = 1%nat).
Proof.
  intros Hev. pose proof (evolves_inv _ _ initial_pool_inv Hev) as Inv.
  pose proof Inv as [J1 J2 J3 J4 J5 J6 J7 J8 J9 J10].
  split.
  { intros i r. unfold thread_step.
    destruct (threads s !! i) as [p|] eqn:Hi; [|done].
    destruct p; try done; try (intros [= <-]; eauto; fail).
    - destruct (blockingReader_Read (reader s)) as [[n e]|]; [|done].
      intros [= <-]. eauto.
    - destruct (once_done (reader s)); intros [= <-]; eauto.
    - destruct (mutex s); [done|]. intros [= <-]. eauto.
    - destruct (once_done (reader s)); intros [= <-]; eauto.
    - destruct (J5 _ Hi) as [_ Hc]. unfold released in Hc.
      unfold close_chan. rewrite Hc. intros [= <-]. eauto. }
  split; [rewrite J1; destruct (released s); lia|].
  split; [rewrite J1; destruct (released s); split; (done || lia)|].
  split.
  { intros Hr i Hi. unfold thread_step, blockingReader_Read.
    unfold released in Hr. by rewrite Hi, Hr. }
  split.
  { intros Hr i Hi. unfold thread_step, blockingReader_Read.
    unfold released in Hr. by rewrite Hi, Hr. }
  split; [exact J9|].
  split; [intros i e Hi; destruct (J10 _ _ Hi); auto|].
  split.
  { intros (i & p & Hi & Hcl).
    destruct (mutex s) as [k|] eqn:Hm.
    - destruct (J4 _ eq_refl) as (q & Hq & Hcr).
      destruct (critical_moves _ _ _ Inv Hq Hcr) as [s' Hs'].
      exists k, q, s'. repeat split; try done. by destruct q.
    - exists i, p. unfold thread_step. rewrite Hi.
      destruct p; try done;
        try (specialize (J3 _ _ Hi eq_refl); congruence).
      + destruct (once_done (reader s)); eauto.
      + rewrite Hm. eauto. }
  intros s' Hev' Hr.
  pose proof (evolves_released _ _ Hev' Hr) as Hr'.
  split; [done|].
  destruct (evolves_inv _ _ Inv Hev') as [J1' _ _ _ _ _ _ _ _ _].
  by rewrite J1', Hr'.
Qed.

Lemma gate_example_evolves : evolves initial_pool gate_example.
Proof.
  apply (evolves_trans _
           (spawn OnceLoad (spawn OnceLoad (spawn ReadRecv initial_pool)))).
  - do 3 constructor. constructor.
  - by apply (schedule_evolves [0; 1; 2; 1; 1; 1; 1; 2]%nat).
Qed.

Lemma blockingReader_gate_witness :
  broadcasts gate_example = 1%nat
  ∧ thread_step 0 gate_example
    = Some (Ok (goto 0 (ReadDone 0 (Some EOF)) gate_example))
  ∧ thread_step 2 gate_example = None.
Proof.
  destruct (blockingReader_gate gate_example gate_example_evolves)
    as (_ & _ & Hb & _ & Hread & _).
  split; [apply Hb; reflexivity|].
  split; [apply Hread; reflexivity|reflexivity].
Defined.

(** ** The line logger *)

Lemma partitions_complete (s : string) (writes : list string) :
  written writes = s → Forall (λ w, w ≠ "") writes →
  In writes (partitions s).
Proof.
  revert writes. induction s as [|a rest IH]; intros writes Hw Hne.
  - destruct writes as [|w ws]; [by left|].
    apply Forall_cons in Hne as [Hw0 _]. destruct w; [done|discriminate].
  - destruct writes as [|w ws]; [discriminate|].
    apply Forall_cons in Hne as [Hw0 Hne]. destruct w as [|b w]; [done|].
    injection Hw as -> Hrest. cbn [partitions]. apply in_flat_map.
    destruct w as [|b' w].
    + exists ws. split; [by apply IH|].
      destruct ws; [by left|by left].
    + exists (String b' w :: ws). split.
      * apply IH; [done|]. by constructor.
      * right. by left.
Qed.

Lemma Scan_fuel_S fuel s p r :
  Scan fuel s p = Some r → Scan (S fuel) s p = Some r.
Proof.
  revert s p. induction fuel as [|fuel IH]; intros s p; [done|].
  cbn [Scan]. destruct (Scan_turn s p); [done|]. apply IH.
Qed.

Lemma logger_loop_fuel_S fuel s p calls r :
  logger_loop fuel s p calls = Some r →
  logger_loop (S fuel) s p calls = Some r.
Proof.
  revert s p calls. induction fuel as [|fuel IH]; intros s p calls; [done|].
  intros H. change (logger_loop (S fuel) s p calls) with
    (match Scan fuel s p with
     | None => None
     | Some (ScanToken tk, s', p') => logger_loop fuel s' p' (calls ++ [tk])
     | Some (ScanStop, _, _) => Some (LoggerDone calls)
     | Some (ScanBlocked, s', _) => Some (LoggerBlocked calls (held s'))
     end) in H.
  change (logger_loop (S (S fuel)) s p calls) with
    (match Scan (S fuel) s p with
     | None => None
     | Some (ScanToken tk, s', p') => logger_loop (S fuel) s' p' (calls ++ [tk])
     | Some (ScanStop, _, _) => Some (LoggerDone calls)
     | Some (ScanBlocked, s', _) => Some (LoggerBlocked calls (held s'))
     end).
  destruct (Scan fuel s p) as [[[o s'] p']|] eqn:Hs; [|done].
  rewrite (Scan_fuel_S _ _ _ _ Hs). destruct o; auto.
Qed.

Lemma NewLineLogger_fuel fuel fuel' writes closed r :
  (fuel ≤ fuel')%nat →
  NewLineLogger fuel writes closed = Some r →
  NewLineLogger fuel' writes closed = Some r.
Proof.
  unfold NewLineLogger. induction 1 as [|fuel' _ IH]; [done|].
  intros H. by apply logger_loop_fuel_S, IH.
Qed.

Lemma sample_output_partitions :
  forallb (logger_gives false (LoggerBlocked ["a"; "bb"] "ccc"))
          (partitions sample_output) = true.
Proof. vm_compute. reflexivity. Qed.

Lemma sample_output_partitions_closed :
  forallb (logger_gives true (LoggerDone ["a"; "bb"; "ccc"]))
          (partitions sample_output) = true.
Proof. vm_compute. reflexivity. Qed.

(** C7: however the bytes of the sample are cut into writes, the goroutine of
    the logger calls [f] exactly twice, with the first line and then with the
    second, without their line feeds, and then waits in [Read] with the
    unterminated third line in the scanner: it is not given to [f] while
    the writer is open. *)
Theorem NewLineLogger_sample (writes : list string) (fuel : nat) :
  written writes = sample_output →
  Forall (λ w, w ≠ "") writes →
  (16 ≤ fuel)%nat →
  NewLineLogger fuel writes false = Some (LoggerBlocked ["a"; "bb"] "ccc").
Proof.
  intros Hw Hne Hfuel.
  apply (NewLineLogger_fuel 16); [done|].
  pose proof sample_output_partitions as Hall.
  rewrite forallb_forall in Hall.
  specialize (Hall writes (partitions_complete _ _ Hw Hne)).
  unfold logger_gives in Hall. by apply bool_decide_eq_true in Hall.
Qed.

Lemma NewLineLogger_sample_witness :
  NewLineLogger 20 ["a"; String LF "b"; "b" +:+ String LF "cc"; "c"] false
  = Some (LoggerBlocked ["a"; "bb"] "ccc").
Proof.
  apply (NewLineLogger_sample ["a"; String LF "b"; "b" +:+ String LF "cc"; "c"]
           20).
  - reflexivity.
  - repeat constructor; discriminate.
  - lia.
Defined.

(** Once the writer is closed the scanner hands over the unterminated last
    line as well, and the goroutine leaves its loop. *)
Lemma NewLineLogger_sample_closed (writes : list string) (fuel : nat) :
  written writes = sample_output →
  Forall (λ w, w ≠ "") writes →
  (16 ≤ fuel)%nat →
  NewLineLogger fuel writes true = Some (LoggerDone ["a"; "bb"; "ccc"]).
Proof.
  intros Hw Hne Hfuel.
  apply (NewLineLogger_fuel 16); [done|].
  pose proof sample_output_partitions_closed as Hall.
  rewrite forallb_forall in Hall.
  specialize (Hall writes (partitions_complete _ _ Hw Hne)).
  unfold logger_gives in Hall. by apply bool_decide_eq_true in Hall.
Qed.

(** Writes of no bytes are not part of a partition, and the scanner counts
    them: after more than a hundred empty reads in a row it gives up with
    [io.ErrNoProgress], which ends the input as a close does. *)
Lemma NewLineLogger_empty_writes :
  NewLineLogger 16 (sample_output :: repeat "" 100) false
  = Some (LoggerBlocked ["a"; "bb"] "ccc")
  ∧ NewLineLogger 16 (sample_output :: repeat "" 101) false
    = Some (LoggerDone ["a"; "bb"; "ccc"]).
Proof. split; vm_compute; reflexivity. Qed.
